(** * Simple Databricks Auto Loader pipeline: a shallow embedding

    The notebook [simple_autoloader.py] resolves a destination table from a
    file name with a regular expression, sniffs the file format from the
    extension, builds the reader options, appends the rows (with two
    provenance columns) to the table and moves the file to the archive zone.

    Strings are byte strings: a Python [str] is read through its UTF-8
    encoding.  Every character the program inspects ('/', '.', '_', ASCII
    letters and digits, '\t', ',') is a single byte below 128, and the bytes of
    a multi-byte code point are all above 127, so the byte-level functions
    below agree with the code-point-level ones of Python on every test the
    program makes. *)

From Stdlib Require Import Ascii String List Bool Arith Lia.
From stdpp Require Import gmap strings list fin_maps.
Import ListNotations.

(** ** Strings *)

(** [c] lies in the character range [lo-hi] of a character class. *)
Definition in_range (lo hi c : ascii) : bool :=
  (nat_of_ascii lo <=? nat_of_ascii c)%nat && (nat_of_ascii c <=? nat_of_ascii hi)%nat.

(** The class [[a-zA-Z0-9_]]. *)
Definition word_char (c : ascii) : bool :=
  in_range "a"%char "z"%char c || in_range "A"%char "Z"%char c || in_range "0"%char "9"%char c
  || Ascii.eqb c "_"%char.

(** The class [[^/]]: a negated class matches every other character,
    newlines included. *)
Definition not_slash (c : ascii) : bool := negb (Ascii.eqb c "/"%char).

(** [str.lower()] on one character. *)
Definition lower_char (c : ascii) : ascii :=
  if in_range "A"%char "Z"%char c then ascii_of_nat (nat_of_ascii c + 32) else c.

(** [s.lower()]. *)
Fixpoint lower (s : string) : string :=
  match s with
  | EmptyString => EmptyString
  | String c s' => String (lower_char c) (lower s')
  end.

(** [s.split(sep)] for a one-character separator: the pieces between the
    separators, in order; the result is never empty (a string without the
    separator gives the one-element list [[s]]). *)
Fixpoint split (sep : ascii) (s : string) : list string :=
  match s with
  | EmptyString => [EmptyString]
  | String c s' =>
      if Ascii.eqb c sep then EmptyString :: split sep s'
      else match split sep s' with
           | seg :: rest => String c seg :: rest
           | [] => [String c EmptyString]
           end
  end.

(** [l[-1]] on a list of strings; [split] never returns the empty list, on
    which Python would raise. *)
Definition last_item (l : list string) : string := List.last l EmptyString.

(** [s.startswith(p)]. *)
Fixpoint startswith (p s : string) : bool :=
  match p, s with
  | EmptyString, _ => true
  | String a p', String b s' => Ascii.eqb a b && startswith p' s'
  | String _ _, EmptyString => false
  end.

(** [old in s]: [old] occurs somewhere in [s]. *)
Fixpoint occurs (old s : string) : bool :=
  startswith old s ||
  match s with
  | EmptyString => false
  | String _ s' => occurs old s'
  end.

(** The scan of [s.replace(old, new)] for a non-empty [old]: left to right,
    occurrences do not overlap.  [skip] counts the characters of the
    occurrence just replaced that are still to be passed over. *)
Fixpoint replace_scan (old new s : string) (skip : nat) : string :=
  match s with
  | EmptyString => EmptyString
  | String c s' =>
      match skip with
      | S k => replace_scan old new s' k
      | O =>
          if startswith old s
          then new +:+ replace_scan old new s' (String.length old - 1)
          else String c (replace_scan old new s' 0)
      end
  end.

(** [s.replace(old, new)]: every occurrence of [old] replaced.  For the empty
    [old] Python puts [new] before every character and at the end. *)
Fixpoint replace_empty (new s : string) : string :=
  match s with
  | EmptyString => new
  | String c s' => new +:+ String c (replace_empty new s')
  end.

Definition replace (old new s : string) : string :=
  match old with
  | EmptyString => replace_empty new s
  | String _ _ => replace_scan old new s 0
  end.

(** ** Regular expressions, as much as the program uses *)

Module Re.

(** A regular expression: literal characters, greedy repetition of a
    character class, capturing groups, concatenation. *)
Inductive regex : Type :=
| Char (c : ascii)
| Plus (cls : ascii -> bool)
| Star (cls : ascii -> bool)
| Group (r : regex)
| Seq (r1 r2 : regex).

(** A match object: the text of the capturing groups, in the order in which
    the groups close. *)
Record Match : Type := { groups : list string }.

(** [m.group(i)] for [i >= 1]. *)
Definition group (i : nat) (m : Match) : option string :=
  nth_error (groups m) (i - 1).

(** Greedy [cls*] with backtracking: take as many characters as the class
    allows, and give one back each time the rest of the pattern [k] fails. *)
Fixpoint star_bt {A : Type} (cls : ascii -> bool) (s : string)
    (k : string -> option A) : option A :=
  match s with
  | String c s' =>
      if cls c
      then match star_bt cls s' k with
           | Some r => Some r
           | None => k s
           end
      else k s
  | EmptyString => k s
  end.

(** The backtracking matcher: [bt r s caps k] matches [r] at the start of
    [s], then runs the rest of the pattern [k] on what is left; the first
    alternative that lets [k] succeed wins. *)
Fixpoint bt {A : Type} (r : regex) (s : string) (caps : list string)
    (k : string -> list string -> option A) : option A :=
  match r with
  | Char c =>
      match s with
      | String c' s' => if Ascii.eqb c c' then k s' caps else None
      | EmptyString => None
      end
  | Plus cls =>
      match s with
      | String c s' =>
          if cls c then star_bt cls s' (fun s'' => k s'' caps) else None
      | EmptyString => None
      end
  | Star cls => star_bt cls s (fun s' => k s' caps)
  | Group r1 =>
      bt r1 s caps (fun s' caps' =>
        k s' (caps' ++ [String.substring 0 (String.length s - String.length s') s]))
  | Seq r1 r2 => bt r1 s caps (fun s' caps' => bt r2 s' caps' k)
  end.

(** [re.match(r, s)]: a match anchored at the start of [s]. *)
Definition match_at (r : regex) (s : string) : option Match :=
  bt r s [] (fun _ caps => Some {| groups := caps |}).

(** [re.search(r, s)]: the match at the leftmost position that has one;
    the positions run from 0 to [len(s)]. *)
Fixpoint search (r : regex) (s : string) : option Match :=
  match match_at r s with
  | Some m => Some m
  | None =>
      match s with
      | String _ s' => search r s'
      | EmptyString => None
      end
  end.

End Re.

(** ** The helpers of the notebook *)

(** The pattern [r'/([a-zA-Z0-9_]+)[^/]*\.']. *)
Definition table_name_pattern : Re.regex :=
  Re.Seq (Re.Char "/"%char)
    (Re.Seq (Re.Group (Re.Plus word_char))
       (Re.Seq (Re.Star not_slash) (Re.Char "."))).

(** [extract_table_name(file_path)]: group 1 of the first match of the
    pattern, [None] when the pattern matches nowhere. *)
Definition extract_table_name (file_path : string) : option string :=
  match Re.search table_name_pattern file_path with
  | Some m => Re.group 1 m
  | None => None
  end.

(** The extensions [detect_format] knows. *)
Definition known_formats : list string := ["csv"; "json"; "parquet"; "txt"].

(** [ext in l] on a list of strings. *)
Definition mem (x : string) (l : list string) : bool := existsb (String.eqb x) l.

(** [detect_format(file_path)]. *)
Definition detect_format (file_path : string) : string :=
  let ext := lower (last_item (split "."%char file_path)) in
  if mem ext known_formats then ext else "csv".

(** ** Configuration *)

Definition landing_zone : string := "s3://your-bucket/landing-zone/".
Definition archive_zone : string := "s3://your-bucket/archive-zone/".
Definition catalog : string := "entity_resolution_dev".
Definition schema : string := "bronze".
Definition checkpoint_path : string := "/tmp/autoloader/checkpoints".

(** ** Rows and data frames *)

(** A cell of a row: text, or a timestamp (microseconds since the epoch). *)
Inductive value : Type :=
| VStr (s : string)
| VTimestamp (t : Z).

(** A row maps column names to cells. *)
Abbreviation row := (gmap string value).

(** The column expressions the notebook builds. *)
Inductive Column : Type :=
| lit (v : string)
| current_timestamp.

(** A data frame is a plan: the rows its source yields and the columns added
    by [withColumn], first added first.  Nothing is evaluated before an
    action runs the plan. *)
Record DataFrame : Type := {
  df_source : list row;
  df_columns : list (string * Column)
}.

(** [df.withColumn(name, col)]. *)
Definition withColumn (name : string) (col : Column) (df : DataFrame) : DataFrame :=
  {| df_source := df_source df; df_columns := df_columns df ++ [(name, col)] |}.

(** The value of a column expression in a query that started at [now]:
    [current_timestamp()] is the start time of the query, the same for every
    row of the query. *)
Definition eval_column (now : Z) (col : Column) : value :=
  match col with
  | lit v => VStr v
  | current_timestamp => VTimestamp now
  end.

(** One row of the result: each added column set (or replaced) in turn. *)
Definition project (now : Z) (columns : list (string * Column)) (r : row) : row :=
  fold_left (fun acc nc => <[fst nc := eval_column now (snd nc)]> acc) columns r.

(** The rows a query over [df] produces when it starts at [now]. *)
Definition collect (now : Z) (df : DataFrame) : list row :=
  map (project now (df_columns df)) (df_source df).

(** ** The outside world *)

(** The calls the notebook makes to its collaborators. *)
Inductive call : Type :=
| ListTables (namespace : string)
| Ls (path : string)
| Print (msg : string)
| PrintList (label : string) (items : list string)
| Load (format : string) (options : gmap string string) (path : string)
| SaveAsTable (format mode : string) (options : gmap string string)
    (table : string) (rows : list row)
| Mv (src dst : string).

(** A call in the log, with [true] if it returned and [false] if it raised. *)
Abbreviation event := (call * bool)%type.

(** What the collaborators answer; each answer may depend on everything that
    happened before (the log).  [None] and [false] stand for a raised
    exception. *)
Record World : Type := {
  catalog_listTables : list event -> string -> option (list string);
  fs_ls : list event -> string -> option (list string);
  reader_load : list event -> string -> gmap string string -> string -> option (list row);
  query_start : list event -> Z;
  writer_commits : list event -> string -> list row -> bool;
  fs_mv : list event -> string -> string -> bool
}.

(** The exceptions that reach the notebook, by the call that raised. *)
Inductive exn : Type :=
| CatalogError
| ListingError
| ReadError
| WriteError
| MoveError.

(** How a piece of the notebook ends: with a value, or with an exception
    nobody caught. *)
Inductive result (A : Type) : Type :=
| Returned (a : A)
| Raised (e : exn).
Arguments Returned {A} a.
Arguments Raised {A} e.

(** A computation extends the log and returns or raises. *)
Definition Run (A : Type) : Type := list event -> list event * result A.

#[global] Instance Run_ret : MRet Run := fun A a log => (log, Returned a).
#[global] Instance Run_bind : MBind Run := fun A B f m log =>
  match m log with
  | (log', Returned a) => f a log'
  | (log', Raised e) => (log', Raised e)
  end.

(** [print(msg)]. *)
Definition print (msg : string) : Run unit :=
  fun log => (log ++ [(Print msg, true)], Returned tt).

(** [print(label, items)]. *)
Definition print_list (label : string) (items : list string) : Run unit :=
  fun log => (log ++ [(PrintList label items, true)], Returned tt).

(** [[t.name for t in spark.catalog.listTables(namespace)]]. *)
Definition listTables (W : World) (namespace : string) : Run (list string) :=
  fun log =>
    match catalog_listTables W log namespace with
    | Some names => (log ++ [(ListTables namespace, true)], Returned names)
    | None => (log ++ [(ListTables namespace, false)], Raised CatalogError)
    end.

(** [[file.path for file in dbutils.fs.ls(path)]]. *)
Definition ls (W : World) (path : string) : Run (list string) :=
  fun log =>
    match fs_ls W log path with
    | Some paths => (log ++ [(Ls path, true)], Returned paths)
    | None => (log ++ [(Ls path, false)], Raised ListingError)
    end.

(** [spark.read.format(format)], the unpacked [options] dictionary as its
    options, then [.load(path)]. *)
Definition load (W : World) (format : string) (options : gmap string string)
    (path : string) : Run DataFrame :=
  fun log =>
    match reader_load W log format options path with
    | Some rows =>
        (log ++ [(Load format options path, true)],
         Returned {| df_source := rows; df_columns := [] |})
    | None => (log ++ [(Load format options path, false)], Raised ReadError)
    end.

(** [df.write.format(format).mode(mode).option(key, val).saveAsTable(table)]:
    the action that runs the plan, as one query. *)
Definition saveAsTable (W : World) (df : DataFrame) (format mode key val table : string)
    : Run unit :=
  fun log =>
    let rows := collect (query_start W log) df in
    let c := SaveAsTable format mode {[ key := val ]} table rows in
    if writer_commits W log table rows
    then (log ++ [(c, true)], Returned tt)
    else (log ++ [(c, false)], Raised WriteError).

(** [dbutils.fs.mv(src, dst)]. *)
Definition mv (W : World) (src dst : string) : Run unit :=
  fun log =>
    if fs_mv W log src dst
    then (log ++ [(Mv src dst, true)], Returned tt)
    else (log ++ [(Mv src dst, false)], Raised MoveError).

(** ** The main cell *)

(** The tab character, ['\t']. *)
Definition tab : string := String (ascii_of_nat 9) EmptyString.

(** The [options] dictionary of the loop body, after both [if]s. *)
Definition options (file_format table_name : string) : gmap string string :=
  let options : gmap string string :=
    <["cloudFiles.inferColumnTypes" := "true"]>
      (<["cloudFiles.schemaLocation" := checkpoint_path +:+ "/" +:+ table_name +:+ "/schema"]>
         (<["cloudFiles.format" := file_format]> ∅)) in
  let options :=
    if String.eqb file_format "csv"
    then <["delimiter" := ","]> (<["header" := "true"]> options)
    else options in
  let options :=
    if String.eqb file_format "txt"
    then <["delimiter" := tab]> (<["header" := "true"]> options)
    else options in
  options.

(** [archive_zone + file_path.replace(landing_zone, '')]. *)
Definition archive_path (file_path : string) : string :=
  archive_zone +:+ replace landing_zone "" file_path.

(** The body of the loop from the format detection on: read, add the two
    columns, write, move. *)
Definition ingest (W : World) (file_path table_name : string) : Run unit :=
  let file_format := detect_format file_path in
  print ("Processing " +:+ file_path +:+ " as " +:+ file_format +:+ " into "
         +:+ catalog +:+ "." +:+ schema +:+ "." +:+ table_name);;
  df ← load W "cloudFiles" (options file_format table_name) file_path;
  let df := withColumn "load_timestamp" current_timestamp
              (withColumn "source_file" (lit file_path) df) in
  saveAsTable W df "delta" "append" "mergeSchema" "true"
    (catalog +:+ "." +:+ schema +:+ "." +:+ table_name);;
  mv W file_path (archive_path file_path);;
  print ("Moved " +:+ file_path +:+ " to " +:+ archive_path file_path).

(** The body of the loop for one file; [continue] ends it early.
    [not table_name] holds for [None] and for the empty string. *)
Definition process_file (W : World) (tables : list string) (file_path : string)
    : Run unit :=
  match extract_table_name file_path with
  | None | Some EmptyString =>
      print ("Could not extract table name from " +:+ file_path +:+ ", skipping.")
  | Some table_name =>
      if negb (mem table_name tables)
      then print ("Table " +:+ table_name +:+ " does not exist in "
                  +:+ catalog +:+ "." +:+ schema +:+ ", skipping.")
      else ingest W file_path table_name
  end.

(** [for file in files: ...]: an exception leaves the loop. *)
Fixpoint for_each (body : string -> Run unit) (files : list string) : Run unit :=
  match files with
  | [] => mret tt
  | file :: rest => body file;; for_each body rest
  end.

(** The notebook, top to bottom. *)
Definition main (W : World) : Run unit :=
  tables ← listTables W (catalog +:+ "." +:+ schema);
  print_list "Available tables:" tables;;
  print "Configuration loaded. Ready to process files.";;
  files ← ls W landing_zone;
  for_each (process_file W tables) files;;
  print "Auto Loader pipeline complete.".

(** ** Notions used in the statements *)

(** [c in s] for a character. *)
Fixpoint contains (c : ascii) (s : string) : bool :=
  match s with
  | EmptyString => false
  | String c' s' => Ascii.eqb c' c || contains c s'
  end.

(** The string begins with a character of [[a-zA-Z0-9_]]. *)
Definition starts_word (s : string) : bool :=
  match s with
  | String c _ => word_char c
  | EmptyString => false
  end.

(** A path segment with a leading alphanumeric/underscore run and a dot. *)
Definition dotted_word_segment (seg : string) : bool :=
  starts_word seg && contains "."%char seg.

(** The segment after the final path separator. *)
Definition basename (path : string) : string := last_item (split "/"%char path).

(** The longest prefix made of characters of [[a-zA-Z0-9_]]. *)
Fixpoint span_word (s : string) : string :=
  match s with
  | String c s' => if word_char c then String c (span_word s') else EmptyString
  | EmptyString => EmptyString
  end.

(** A dot comes before the next path separator (or the end). *)
Fixpoint dot_ahead (s : string) : bool :=
  match s with
  | EmptyString => false
  | String c s' =>
      if Ascii.eqb c "."%char then true
      else if Ascii.eqb c "/"%char then false
      else dot_ahead s'
  end.

(** Reads, writes and moves: the calls that touch data or files. *)
Definition is_effect (c : call) : bool :=
  match c with
  | Load _ _ _ | SaveAsTable _ _ _ _ _ | Mv _ _ => true
  | _ => false
  end.

Definition is_mv (c : call) : bool :=
  match c with
  | Mv _ _ => true
  | _ => false
  end.

(** The events of one file, by name. *)
Definition table_id (table_name : string) : string :=
  catalog +:+ "." +:+ schema +:+ "." +:+ table_name.

Definition ev_processing (file_path table_name : string) : event :=
  (Print ("Processing " +:+ file_path +:+ " as " +:+ detect_format file_path
          +:+ " into " +:+ table_id table_name), true).

Definition ev_load (file_path table_name : string) (ok : bool) : event :=
  (Load "cloudFiles" (options (detect_format file_path) table_name) file_path, ok).

Definition ev_write (table_name : string) (rows : list row) (ok : bool) : event :=
  (SaveAsTable "delta" "append" {[ "mergeSchema" := "true" ]} (table_id table_name) rows, ok).

Definition ev_mv (file_path : string) (ok : bool) : event :=
  (Mv file_path (archive_path file_path), ok).

Definition ev_moved (file_path : string) : event :=
  (Print ("Moved " +:+ file_path +:+ " to " +:+ archive_path file_path), true).

(** The rows of a file once the two columns are added, in a query that
    starts at [now]. *)
Definition augmented (file_path : string) (source : list row) (now : Z) : list row :=
  collect now
    (withColumn "load_timestamp" current_timestamp
       (withColumn "source_file" (lit file_path)
          {| df_source := source; df_columns := [] |})).

Definition ev_skip_name (file_path : string) : event :=
  (Print ("Could not extract table name from " +:+ file_path +:+ ", skipping."), true).

Definition ev_skip_table (table_name : string) : event :=
  (Print ("Table " +:+ table_name +:+ " does not exist in "
          +:+ catalog +:+ "." +:+ schema +:+ ", skipping."), true).

(** The ways one pass through the loop body can go: the events it adds to
    the log and how it ends. *)
Inductive file_run (tables : list string) (file_path : string)
  : list event -> result unit -> Prop :=
| run_no_name :
    extract_table_name file_path = None ->
    file_run tables file_path [ev_skip_name file_path] (Returned tt)
| run_unregistered (table_name : string) :
    extract_table_name file_path = Some table_name ->
    mem table_name tables = false ->
    file_run tables file_path [ev_skip_table table_name] (Returned tt)
| run_read_failed (table_name : string) :
    extract_table_name file_path = Some table_name ->
    mem table_name tables = true ->
    file_run tables file_path
      [ev_processing file_path table_name; ev_load file_path table_name false]
      (Raised ReadError)
| run_write_failed (table_name : string) (source : list row) (now : Z) :
    extract_table_name file_path = Some table_name ->
    mem table_name tables = true ->
    file_run tables file_path
      [ev_processing file_path table_name; ev_load file_path table_name true;
       ev_write table_name (augmented file_path source now) false]
      (Raised WriteError)
| run_move_failed (table_name : string) (source : list row) (now : Z) :
    extract_table_name file_path = Some table_name ->
    mem table_name tables = true ->
    file_run tables file_path
      [ev_processing file_path table_name; ev_load file_path table_name true;
       ev_write table_name (augmented file_path source now) true;
       ev_mv file_path false]
      (Raised MoveError)
| run_archived (table_name : string) (source : list row) (now : Z) :
    extract_table_name file_path = Some table_name ->
    mem table_name tables = true ->
    file_run tables file_path
      [ev_processing file_path table_name; ev_load file_path table_name true;
       ev_write table_name (augmented file_path source now) true;
       ev_mv file_path true; ev_moved file_path]
      (Returned tt).

(** ** Sample worlds *)

(** Two files land, both tables are registered, the reader yields two rows
    per file, the clock is the length of the log; writes commit as [commits]
    says and moves succeed. *)
Definition sample_files : list string :=
  [landing_zone +:+ "a.csv"; landing_zone +:+ "b.csv"].

Definition sample_rows : list row :=
  [ {[ "id" := VStr "1" ]}; {[ "id" := VStr "2"; "source_file" := VStr "stale" ]} ].

Definition sample_world (commits : bool) : World := {|
  catalog_listTables := fun _ _ => Some ["a"; "b"];
  fs_ls := fun _ _ => Some sample_files;
  reader_load := fun _ _ _ _ => Some sample_rows;
  query_start := fun log => Z.of_nat (length log);
  writer_commits := fun _ _ _ => commits;
  fs_mv := fun _ _ _ => true
|}.

(** ** The loop and the invocation, by what they log *)

(** [if not table_name ... if table_name not in tables ...]: the file gets
    past both tests of the loop. *)
Definition eligible (tables : list string) (file_path : string) : bool :=
  match extract_table_name file_path with
  | Some table_name => negb (String.eqb table_name "") && mem table_name tables
  | None => false
  end.

(** The ways the loop can go over the listed files: pass after pass, until
    the list ends or a pass raises. *)
Inductive loop_run (tables : list string)
  : list string -> list event -> result unit -> Prop :=
| loop_done : loop_run tables [] [] (Returned tt)
| loop_raised (file_path : string) (rest : list string) (evs : list event) (e : exn) :
    file_run tables file_path evs (Raised e) ->
    loop_run tables (file_path :: rest) evs (Raised e)
| loop_next (file_path : string) (rest : list string) (evs evs' : list event)
    (res : result unit) :
    file_run tables file_path evs (Returned tt) ->
    loop_run tables rest evs' res ->
    loop_run tables (file_path :: rest) (evs ++ evs') res.

(** [f'{catalog}.{schema}'], the namespace whose tables are listed. *)
Definition namespace : string := catalog +:+ "." +:+ schema.

(** What is logged before the landing zone is listed. *)
Definition preamble (tables : list string) : list event :=
  [(ListTables namespace, true);
   (PrintList "Available tables:" tables, true);
   (Print "Configuration loaded. Ready to process files.", true)].

Definition ev_complete : event := (Print "Auto Loader pipeline complete.", true).

(** What is logged after the loop: the last line, if the loop returned. *)
Definition closing (res : result unit) : list event :=
  match res with
  | Returned _ => [ev_complete]
  | Raised _ => []
  end.

(** The ways an invocation of the notebook can go, from an empty log. *)
Inductive invocation (W : World) : list event -> result unit -> Prop :=
| inv_no_catalog :
    catalog_listTables W [] namespace = None ->
    invocation W [(ListTables namespace, false)] (Raised CatalogError)
| inv_no_listing (tables : list string) :
    catalog_listTables W [] namespace = Some tables ->
    fs_ls W (preamble tables) landing_zone = None ->
    invocation W (preamble tables ++ [(Ls landing_zone, false)]) (Raised ListingError)
| inv_loop (tables files : list string) (evs : list event) (res : result unit) :
    catalog_listTables W [] namespace = Some tables ->
    fs_ls W (preamble tables) landing_zone = Some files ->
    loop_run tables files evs res ->
    invocation W (preamble tables ++ (Ls landing_zone, true) :: evs ++ closing res) res.

(** The paths handed to the reader, in the order of the calls. *)
Definition loaded_paths (evs : list event) : list string :=
  flat_map (fun e => match fst e with
                     | Load _ _ path => [path]
                     | _ => []
                     end) evs.

(** A write that committed. *)
Definition is_commit (e : event) : bool :=
  match e with
  | (SaveAsTable _ _ _ _ _, true) => true
  | _ => false
  end.

(** The characters of a string are all in [[a-zA-Z0-9_]]. *)
Definition all_word (s : string) : bool :=
  forallb word_char (list_ascii_of_string s).

(** The call that raises each exception. *)
Definition raiser (x : exn) (c : call) : bool :=
  match x, c with
  | CatalogError, ListTables _ => true
  | ListingError, Ls _ => true
  | ReadError, Load _ _ _ => true
  | WriteError, SaveAsTable _ _ _ _ _ => true
  | MoveError, Mv _ _ => true
  | _, _ => false
  end.

(** A log that records no failed call if the run returned, and exactly one,
    at its end and of the kind of the exception, if the run raised. *)
Definition ends_well (evs : list event) (res : result unit) : Prop :=
  match res with
  | Returned _ => forall e, In e evs -> snd e = true
  | Raised x =>
      exists before c,
        evs = before ++ [(c, false)] /\
        (forall e, In e before -> snd e = true) /\
        raiser x c = true
  end.

(** A world whose catalog cannot be reached. *)
Definition unreachable_catalog : World := {|
  catalog_listTables := fun _ _ => None;
  fs_ls := fun _ _ => Some sample_files;
  reader_load := fun _ _ _ _ => Some sample_rows;
  query_start := fun log => Z.of_nat (length log);
  writer_commits := fun _ _ _ => true;
  fs_mv := fun _ _ _ => true
|}.

(** * Facts *)

(** ** Characters and strings *)

Lemma ascii_eqb_sym (a b : ascii) : Ascii.eqb a b = Ascii.eqb b a.
Proof.
  destruct (Ascii.eqb_spec a b) as [->|Hne].
  - symmetry. apply Ascii.eqb_refl.
  - symmetry. apply Ascii.eqb_neq. congruence.
Qed.

(** A character of the class [[a-zA-Z0-9_]] is neither a dot nor a slash. *)
Lemma word_char_plain (c : ascii) :
  word_char c = true ->
  Ascii.eqb c "."%char = false /\ Ascii.eqb c "/"%char = false.
Proof.
  intros Hw. split; apply Ascii.eqb_neq; intros ->; vm_compute in Hw; discriminate.
Qed.

(** [String.append] is never unfolded by [simpl]; its two equations. *)
Lemma string_app_nil_l (b : string) : "" +:+ b = b.
Proof. reflexivity. Qed.

Lemma string_app_cons (x : ascii) (a b : string) :
  String x a +:+ b = String x (a +:+ b).
Proof. reflexivity. Qed.

Ltac string_simpl := rewrite ?string_app_cons, ?string_app_nil_l; simpl.

Lemma string_length_app (a b : string) :
  String.length (a +:+ b) = String.length a + String.length b.
Proof.
  induction a as [|c a IH]; string_simpl; [reflexivity | now rewrite IH].
Qed.

Lemma string_app_assoc (a b c : string) : (a +:+ b) +:+ c = a +:+ (b +:+ c).
Proof.
  induction a as [|x a IH]; string_simpl; [reflexivity | now rewrite IH].
Qed.

Lemma string_app_nil_r (a : string) : a +:+ "" = a.
Proof.
  induction a as [|x a IH]; string_simpl; [reflexivity | now rewrite IH].
Qed.

Lemma substring_prefix (a b : string) :
  String.substring 0 (String.length (a +:+ b) - String.length b) (a +:+ b) = a.
Proof.
  rewrite string_length_app.
  replace (String.length a + String.length b - String.length b) with (String.length a) by lia.
  induction a as [|x a IH]; string_simpl.
  - destruct b; reflexivity.
  - now rewrite IH.
Qed.

Lemma split_nonempty (sep : ascii) (s : string) : split sep s <> [].
Proof.
  destruct s as [|c s]; simpl; [discriminate|].
  destruct (Ascii.eqb c sep); [discriminate|].
  destruct (split sep s); discriminate.
Qed.

(** A string without the separator is its own only piece. *)
Lemma split_without_sep (sep : ascii) (s : string) :
  contains sep s = false -> split sep s = [s].
Proof.
  induction s as [|c s IH]; simpl; [reflexivity|].
  intros H. apply orb_false_iff in H as [Hc Hs].
  rewrite Hc, (IH Hs). reflexivity.
Qed.

(** The last piece of [pre + sep + suf] is the last piece of [suf]. *)
Lemma last_split_app (sep : ascii) (pre suf : string) :
  last_item (split sep (pre +:+ String sep suf)) = last_item (split sep suf).
Proof.
  unfold last_item.
  induction pre as [|c pre IH]; string_simpl.
  - rewrite Ascii.eqb_refl.
    destruct (split sep suf) eqn:E; [now apply split_nonempty in E | reflexivity].
  - destruct (Ascii.eqb c sep).
    + destruct (split sep (pre +:+ String sep suf)) eqn:E;
        [now apply split_nonempty in E | exact IH].
    + destruct (split sep (pre +:+ String sep suf)) as [|seg rest] eqn:E;
        [now apply split_nonempty in E |].
      destruct rest as [|seg' rest]; [|exact IH].
      (* one piece only: impossible, the separator is in the string *)
      exfalso. clear IH.
      revert seg E.
      induction pre as [|d pre IHp]; intros seg E;
        rewrite ?string_app_cons, ?string_app_nil_l in E; simpl in E.
      * rewrite Ascii.eqb_refl in E.
        destruct (split sep suf) eqn:E'; [now apply split_nonempty in E'|discriminate].
      * destruct (Ascii.eqb d sep).
        -- destruct (split sep (pre +:+ String sep suf)) eqn:E';
             [now apply split_nonempty in E'|discriminate].
        -- destruct (split sep (pre +:+ String sep suf)) as [|seg0 rest0] eqn:E';
             [now apply split_nonempty in E'|].
           destruct rest0; [|discriminate]. eapply IHp. reflexivity.
Qed.

Lemma startswith_app (old rest : string) : startswith old (old +:+ rest) = true.
Proof.
  induction old as [|c old IH]; string_simpl; [reflexivity|].
  now rewrite Ascii.eqb_refl, IH.
Qed.

(** While [skip] characters are still to be passed over, the scan drops them. *)
Lemma replace_scan_skip (old new p r : string) :
  replace_scan old new (p +:+ r) (String.length p) = replace_scan old new r 0.
Proof.
  induction p as [|c p IH]; string_simpl; [reflexivity | exact IH].
Qed.

(** Where [old] does not occur, the scan changes nothing. *)
Lemma replace_scan_absent (old new r : string) :
  occurs old r = false -> replace_scan old new r 0 = r.
Proof.
  induction r as [|c r IH]; intros H; [reflexivity|].
  cbn [occurs] in H. apply orb_false_iff in H as [Hs Ho].
  cbn [replace_scan]. rewrite Hs, (IH Ho). reflexivity.
Qed.

(** Removing a prefix that does not occur again leaves the rest. *)
Lemma replace_prefix (old rel : string) :
  old <> "" -> occurs old rel = false -> replace old "" (old +:+ rel) = rel.
Proof.
  intros Hne Habs. destruct old as [|c old]; [congruence|].
  unfold replace. rewrite string_app_cons. cbn [replace_scan].
  rewrite <- string_app_cons, startswith_app, string_app_nil_l.
  replace (String.length (String c old) - 1) with (String.length old)
    by (simpl; lia).
  rewrite replace_scan_skip. now apply replace_scan_absent.
Qed.

(** ** The pattern, step by step *)

(** The defining equation of the greedy star on a non-empty string. *)
Lemma star_bt_cons {A : Type} (cls : ascii -> bool) (c : ascii) (s : string)
    (k : string -> option A) :
  Re.star_bt cls (String c s) k =
  if cls c
  then match Re.star_bt cls s k with
       | Some r => Some r
       | None => k (String c s)
       end
  else k (String c s).
Proof. reflexivity. Qed.

(** [[^/]*\.] succeeds exactly when a dot comes before the next slash. *)
Lemma star_not_slash_dot {A : Type} (v : A) (s : string) :
  Re.star_bt not_slash s
    (fun s0 => match s0 with
               | EmptyString => None
               | String c' _ => if Ascii.eqb "."%char c' then Some v else None
               end)
  = if dot_ahead s then Some v else None.
Proof.
  induction s as [|c s IH]; [reflexivity|].
  cbn [Re.star_bt dot_ahead]. rewrite IH. unfold not_slash.
  rewrite (ascii_eqb_sym "."%char c).
  destruct (Ascii.eqb_spec c "/"%char) as [->|Hs]; [reflexivity|].
  cbn [negb]. destruct (dot_ahead s), (Ascii.eqb c "."%char); reflexivity.
Qed.

(** A word character in front changes nothing to what lies ahead. *)
Lemma dot_ahead_word (c : ascii) (s : string) :
  word_char c = true -> dot_ahead (String c s) = dot_ahead s.
Proof.
  intros Hw. destruct (word_char_plain c Hw) as [Hd Hs].
  cbn [dot_ahead]. now rewrite Hd, Hs.
Qed.

(** The greedy group: once [pre] is taken, [[a-zA-Z0-9_]*] takes the whole
    run of word characters or, without a dot ahead, nothing matches. *)
Lemma star_word_then_dot (whole pre t : string) :
  whole = pre +:+ t ->
  Re.star_bt word_char t
    (fun s'' =>
       Re.star_bt not_slash s''
         (fun s0 => match s0 with
                    | EmptyString => None
                    | String c' _ =>
                        if Ascii.eqb "."%char c'
                        then Some {| Re.groups :=
                               [] ++ [String.substring 0
                                        (String.length whole - String.length s'') whole] |}
                        else None
                    end))
  = if dot_ahead t then Some {| Re.groups := [pre +:+ span_word t] |} else None.
Proof.
  revert pre. induction t as [|c t IH]; intros pre ->.
  - reflexivity.
  - rewrite star_bt_cons. cbv beta. cbn [span_word].
    destruct (word_char c) eqn:Hw.
    + rewrite (IH (pre +:+ String c "")) by now rewrite string_app_assoc.
      rewrite (dot_ahead_word c t Hw).
      destruct (dot_ahead t) eqn:Hd.
      * now rewrite string_app_assoc.
      * rewrite star_not_slash_dot, (dot_ahead_word c t Hw), Hd. reflexivity.
    + rewrite star_not_slash_dot, substring_prefix, string_app_nil_r.
      reflexivity.
Qed.

(** What the pattern does at one position. *)
Lemma match_at_pattern (s : string) :
  Re.match_at table_name_pattern s =
  match s with
  | String c t =>
      if Ascii.eqb c "/"%char && starts_word t && dot_ahead t
      then Some {| Re.groups := [span_word t] |}
      else None
  | EmptyString => None
  end.
Proof.
  destruct s as [|c t]; [reflexivity|].
  unfold Re.match_at, table_name_pattern. cbn [Re.bt].
  rewrite (ascii_eqb_sym "/"%char c).
  destruct (Ascii.eqb c "/"%char); [|reflexivity].
  destruct t as [|d t]; [reflexivity|].
  cbn [starts_word andb span_word].
  destruct (word_char d) eqn:Hw; [|reflexivity].
  rewrite (star_word_then_dot (String d t) (String d "") t) by reflexivity.
  rewrite (dot_ahead_word d t Hw). reflexivity.
Qed.

(** [extract_table_name], one character at a time. *)
Lemma extract_table_name_nil : extract_table_name "" = None.
Proof. reflexivity. Qed.

Lemma extract_table_name_cons (c : ascii) (t : string) :
  extract_table_name (String c t) =
  if Ascii.eqb c "/"%char && starts_word t && dot_ahead t
  then Some (span_word t)
  else extract_table_name t.
Proof.
  unfold extract_table_name. cbn [Re.search].
  rewrite match_at_pattern.
  destruct (Ascii.eqb c "/"%char && starts_word t && dot_ahead t); reflexivity.
Qed.

(** The name that comes out is never empty. *)
Lemma extract_table_name_nonempty (path : string) :
  extract_table_name path <> Some "".
Proof.
  induction path as [|c t IH]; [discriminate|].
  rewrite extract_table_name_cons.
  destruct (Ascii.eqb c "/"%char && starts_word t && dot_ahead t) eqn:E; [|exact IH].
  apply andb_prop in E as [E _]. apply andb_prop in E as [_ E].
  destruct t as [|d t]; [discriminate|]. cbn in E |- *. rewrite E. discriminate.
Qed.

(** Directories without a dot are passed over: the search starts again at
    the separator that follows them. *)
Lemma extract_table_name_skip_dir (dir rest : string) :
  contains "."%char dir = false ->
  extract_table_name (dir +:+ String "/"%char rest)
  = extract_table_name (String "/"%char rest).
Proof.
  induction dir as [|c dir IH]; intros Hd; [reflexivity|].
  cbn [contains] in Hd. apply orb_false_iff in Hd as [Hc Hdir].
  rewrite string_app_cons, extract_table_name_cons, (IH Hdir).
  assert (dot_ahead (dir +:+ String "/"%char rest) = false) as ->.
  { clear IH Hc. induction dir as [|d dir IHd]; [reflexivity|].
    cbn [contains] in Hdir. apply orb_false_iff in Hdir as [Hd Hdir].
    rewrite string_app_cons. cbn [dot_ahead]. rewrite Hd.
    destruct (Ascii.eqb d "/"%char); [reflexivity | exact (IHd Hdir)]. }
  now rewrite andb_false_r.
Qed.

(** What lies ahead of a position, read off the first segment. *)
Lemma dot_ahead_first_segment (t : string) :
  dot_ahead t = contains "."%char (hd "" (split "/"%char t)).
Proof.
  induction t as [|c t IH]; [reflexivity|].
  cbn [dot_ahead split].
  destruct (Ascii.eqb_spec c "."%char) as [->|Hd].
  - cbn. destruct (split "/"%char t); reflexivity.
  - destruct (Ascii.eqb_spec c "/"%char) as [->|Hs]; [reflexivity|].
    rewrite IH.
    destruct (split "/"%char t) as [|seg rest] eqn:E;
      [now apply split_nonempty in E|].
    cbn. apply Ascii.eqb_neq in Hd. now rewrite Hd.
Qed.

Lemma starts_word_first_segment (t : string) :
  starts_word t = starts_word (hd "" (split "/"%char t)).
Proof.
  destruct t as [|c t]; [reflexivity|].
  cbn [split starts_word].
  destruct (Ascii.eqb_spec c "/"%char) as [->|Hs]; [reflexivity|].
  destruct (split "/"%char t); reflexivity.
Qed.

(** A match always sits in a segment that follows a separator, one with a
    leading word character and a dot. *)
Lemma extract_table_name_segment (path : string) (name : string) :
  extract_table_name path = Some name ->
  exists seg, In seg (tl (split "/"%char path)) /\ dotted_word_segment seg = true.
Proof.
  induction path as [|c t IH]; [discriminate|].
  rewrite extract_table_name_cons.
  destruct (Ascii.eqb c "/"%char && starts_word t && dot_ahead t) eqn:E.
  - intros _. apply andb_prop in E as [E Hd]. apply andb_prop in E as [Hc Hw].
    apply Ascii.eqb_eq in Hc as ->. cbn [split]. rewrite Ascii.eqb_refl. cbn [tl].
    exists (hd "" (split "/"%char t)). split.
    + destruct (split "/"%char t) eqn:E'; [now apply split_nonempty in E'|now left].
    + unfold dotted_word_segment.
      now rewrite <- starts_word_first_segment, <- dot_ahead_first_segment, Hw, Hd.
  - intros H. destruct (IH H) as (seg & Hin & Hseg). exists seg. split; [|exact Hseg].
    cbn [split]. destruct (Ascii.eqb c "/"%char).
    + cbn [tl]. destruct (split "/"%char t); [destruct Hin | now right].
    + destruct (split "/"%char t); [destruct Hin | exact Hin].
Qed.

(** ** The name resolver *)

(** C1.  The notebook documents
    [s3://.../edm_entity_2024-06-01.csv -> edm_entity], and the code does not
    deliver it: for every path whose directories carry no dot and whose
    basename is [edm_entity_2024-06-01.csv], [extract_table_name] returns
    ["edm_entity_2024"].  The digits of the year and the underscore before
    them belong to [[a-zA-Z0-9_]], so the greedy group runs on to the first
    hyphen. *)
Theorem extract_table_name_keeps_year (dir : string) :
  contains "."%char dir = false ->
  extract_table_name (dir +:+ "/edm_entity_2024-06-01.csv") = Some "edm_entity_2024".
Proof.
  intros Hdir.
  change (dir +:+ "/edm_entity_2024-06-01.csv")
    with (dir +:+ String "/"%char "edm_entity_2024-06-01.csv").
  rewrite (extract_table_name_skip_dir _ _ Hdir). reflexivity.
Qed.

Lemma extract_table_name_keeps_year_landing_zone :
  contains "."%char "s3://your-bucket/landing-zone" = false /\
  extract_table_name "s3://your-bucket/landing-zone/edm_entity_2024-06-01.csv"
  = Some "edm_entity_2024".
Proof.
  split; [reflexivity|].
  apply (extract_table_name_keeps_year "s3://your-bucket/landing-zone").
  reflexivity.
Defined.

(** C5.  The name is not a function of the basename alone: the search takes
    the leftmost segment with a leading word run and a dot, so a dot in a
    bucket name wins over the file name.  Two paths with the same basename,
    two different names. *)
Theorem extract_table_name_dotted_bucket :
  basename "s3://my.bucket/landing-zone/edm_entity.csv"
  = basename "s3://your-bucket/landing-zone/edm_entity.csv" /\
  extract_table_name "s3://my.bucket/landing-zone/edm_entity.csv" = Some "my" /\
  extract_table_name "s3://your-bucket/landing-zone/edm_entity.csv" = Some "edm_entity".
Proof. repeat apply conj; reflexivity. Qed.

(** C10.  Without any ['/'] in the path nothing matches, whatever the shape
    of the name: the pattern begins with a literal ['/']. *)
Theorem extract_table_name_needs_separator (path : string) :
  contains "/"%char path = false -> extract_table_name path = None.
Proof.
  induction path as [|c t IH]; intros H; [reflexivity|].
  cbn [contains] in H. apply orb_false_iff in H as [Hc Ht].
  rewrite extract_table_name_cons, Hc. exact (IH Ht).
Qed.

Lemma extract_table_name_needs_separator_bare_name :
  contains "/"%char "edm_entity.csv" = false /\
  extract_table_name "edm_entity.csv" = None.
Proof.
  split; [reflexivity|].
  apply (extract_table_name_needs_separator "edm_entity.csv"). reflexivity.
Defined.

(** ** The format detector *)

Lemma mem_In (x : string) (l : list string) : mem x l = true <-> In x l.
Proof.
  unfold mem. rewrite existsb_exists. split.
  - intros (y & Hy & E). apply String.eqb_eq in E. now subst.
  - intros H. exists x. split; [exact H | apply String.eqb_refl].
Qed.

(** The piece [detect_format] looks at: what follows the last dot, or the
    whole path when it has no dot. *)
Lemma last_segment (path ext : string) :
  path = ext \/ (exists stem, path = stem +:+ "." +:+ ext) ->
  contains "."%char ext = false ->
  last_item (split "."%char path) = ext.
Proof.
  intros [->|[stem ->]] Hext.
  - now rewrite (split_without_sep _ _ Hext).
  - change (stem +:+ "." +:+ ext) with (stem +:+ String "."%char ext).
    now rewrite last_split_app, (split_without_sep _ _ Hext).
Qed.

(** C6, as the code has it.  [detect_format] lower-cases what follows the last
    dot (the whole path when there is no dot), returns it when it is one of
    csv, json, parquet, txt, and returns csv otherwise; so [file.CSV] and
    [file.unknownext] give csv, and a path without a dot gives csv unless the
    whole path, lower-cased, is itself one of the four tags. *)
Theorem detect_format_last_dot (path ext : string) :
  path = ext \/ (exists stem, path = stem +:+ "." +:+ ext) ->
  contains "."%char ext = false ->
  (In (lower ext) ["csv"; "json"; "parquet"; "txt"] -> detect_format path = lower ext) /\
  (~ In (lower ext) ["csv"; "json"; "parquet"; "txt"] -> detect_format path = "csv") /\
  detect_format "a/b/file.CSV" = "csv" /\
  detect_format "a/b/file.unknownext" = "csv".
Proof.
  intros Hpath Hext. unfold detect_format at 1 2.
  rewrite (last_segment path ext Hpath Hext). cbv zeta.
  repeat apply conj; try reflexivity; intros H.
  - apply mem_In in H. unfold known_formats. now rewrite H.
  - destruct (mem (lower ext) known_formats) eqn:E; [|reflexivity].
    apply mem_In in E. contradiction.
Qed.

Lemma detect_format_last_dot_upper_case :
  detect_format "a/b/x.tar.Json" = "json".
Proof.
  assert (contains "."%char "Json" = false) as Hext by reflexivity.
  assert ("a/b/x.tar.Json" = "Json" \/
          exists stem, "a/b/x.tar.Json" = stem +:+ "." +:+ "Json") as Hpath
    by (right; exists "a/b/x.tar"; reflexivity).
  destruct (detect_format_last_dot "a/b/x.tar.Json" "Json" Hpath Hext) as [Hin _].
  apply Hin. simpl. auto.
Defined.

(** C6, as the claim has it, fails where the whole path is a tag: ["txt"] has
    no dot and is not detected as csv. *)
Lemma detect_format_no_dot_not_csv :
  contains "."%char "txt" = false /\ detect_format "txt" = "txt" /\
  detect_format "txt" <> "csv".
Proof. repeat apply conj; [reflexivity | reflexivity | discriminate]. Qed.

(** ** The reader options *)

(** C7.  Whatever the format, the options carry the format, the
    schema-tracking location [checkpoint_path/table_name/schema] and column
    type inference; csv adds a header and the comma, txt a header and the
    tab, every other format (json and parquet among them) neither key. *)
Theorem options_contents (file_format table_name : string) :
  options file_format table_name !! "cloudFiles.format" = Some file_format /\
  options file_format table_name !! "cloudFiles.schemaLocation"
    = Some (checkpoint_path +:+ "/" +:+ table_name +:+ "/schema") /\
  options file_format table_name !! "cloudFiles.inferColumnTypes" = Some "true" /\
  (options file_format table_name !! "header",
   options file_format table_name !! "delimiter")
  = (if decide (file_format = "csv") then (Some "true", Some ",")
     else if decide (file_format = "txt") then (Some "true", Some tab)
     else (None, None)).
Proof.
  unfold options.
  destruct (String.eqb_spec file_format "csv") as [->|Hcsv].
  - cbn [String.eqb Ascii.eqb Bool.eqb]. repeat apply conj; simplify_map_eq; try done.
  - destruct (String.eqb_spec file_format "txt") as [->|Htxt].
    + repeat apply conj; simplify_map_eq; try done.
    + repeat apply conj; simplify_map_eq; done.
Qed.

(** ** One file through the loop body *)

(** The body from the format detection on, by the answers of the world. *)
Lemma ingest_cases (W : World) (file_path table_name : string) (log : list event) :
  match reader_load W (log ++ [ev_processing file_path table_name]) "cloudFiles"
          (options (detect_format file_path) table_name) file_path with
  | None =>
      ingest W file_path table_name log
      = (log ++ [ev_processing file_path table_name; ev_load file_path table_name false],
         Raised ReadError)
  | Some source =>
      let seen := [ev_processing file_path table_name; ev_load file_path table_name true] in
      let rows := augmented file_path source (query_start W (log ++ seen)) in
      if writer_commits W (log ++ seen) (table_id table_name) rows
      then
        if fs_mv W (log ++ seen ++ [ev_write table_name rows true])
             file_path (archive_path file_path)
        then ingest W file_path table_name log
             = (log ++ seen ++ [ev_write table_name rows true; ev_mv file_path true;
                                ev_moved file_path],
                Returned tt)
        else ingest W file_path table_name log
             = (log ++ seen ++ [ev_write table_name rows true; ev_mv file_path false],
                Raised MoveError)
      else ingest W file_path table_name log
           = (log ++ seen ++ [ev_write table_name rows false], Raised WriteError)
  end.
Proof.
  unfold ingest, mbind, Run_bind, print, load, saveAsTable, mv.
  unfold ev_processing, ev_load, ev_write, ev_mv, ev_moved, augmented, table_id.
  cbv zeta.
  destruct (reader_load W _ _ _ _) as [source|];
    rewrite <- ?app_assoc; cbn [app]; [|reflexivity].
  destruct (writer_commits W _ _ _);
    rewrite <- ?app_assoc; cbn [app]; [|reflexivity].
  destruct (fs_mv W _ _ _); rewrite <- ?app_assoc; reflexivity.
Qed.

(** Every pass through the loop body goes one of the six ways. *)
Lemma process_file_run (W : World) (tables : list string) (file_path : string)
    (log : list event) :
  exists evs res,
    process_file W tables file_path log = (log ++ evs, res) /\
    file_run tables file_path evs res.
Proof.
  unfold process_file.
  destruct (extract_table_name file_path) as [table_name|] eqn:Hname.
  - destruct table_name as [|c name'] eqn:Htn.
    { now apply extract_table_name_nonempty in Hname. }
    rewrite <- Htn in *. clear Htn c name'.
    destruct (mem table_name tables) eqn:Hmem; cbn [negb].
    + pose proof (ingest_cases W file_path table_name log) as Hi.
      destruct (reader_load W _ _ _ _) as [source|].
      * cbv zeta in Hi.
        destruct (writer_commits W _ _ _).
        -- destruct (fs_mv W _ _ _); rewrite Hi; do 2 eexists;
             (split; [reflexivity|]).
           ++ now apply run_archived.
           ++ now apply run_move_failed.
        -- rewrite Hi. do 2 eexists. split; [reflexivity|].
           now apply run_write_failed.
      * rewrite Hi. do 2 eexists. split; [reflexivity|].
        now apply run_read_failed.
    + do 2 eexists. split; [reflexivity|]. now apply run_unregistered.
  - do 2 eexists. split; [reflexivity|]. now apply run_no_name.
Qed.

(** The same, for a pass whose events are known. *)
Lemma process_file_inv (W : World) (tables : list string) (file_path : string)
    (log evs : list event) (res : result unit) :
  process_file W tables file_path log = (log ++ evs, res) ->
  file_run tables file_path evs res.
Proof.
  intros H.
  destruct (process_file_run W tables file_path log) as (evs' & res' & E & R).
  rewrite E in H. injection H as Hl Hr. apply app_inv_head in Hl. now subst.
Qed.

(** An exception in the body leaves the loop: the files after it get no
    pass. *)
Lemma for_each_raised (body : string -> Run unit) (file : string)
    (rest : list string) (log log' : list event) (e : exn) :
  body file log = (log', Raised e) ->
  for_each body (file :: rest) log = (log', Raised e).
Proof.
  intros H. cbn [for_each]. unfold mbind, Run_bind. now rewrite H.
Qed.

(** A pass that returns hands the log to the next file. *)
Lemma for_each_returned (body : string -> Run unit) (file : string)
    (rest : list string) (log log' : list event) :
  body file log = (log', Returned tt) ->
  for_each body (file :: rest) log = for_each body rest log'.
Proof.
  intros H. cbn [for_each]. unfold mbind, Run_bind. now rewrite H.
Qed.

(** The two columns are in every row of the result. *)
Lemma augmented_row (file_path : string) (source : list row) (now : Z) (r : row) :
  In r (augmented file_path source now) ->
  r !! "source_file" = Some (VStr file_path) /\
  r !! "load_timestamp" = Some (VTimestamp now).
Proof.
  unfold augmented, collect. cbn. intros H.
  apply in_map_iff in H as (r0 & <- & _).
  unfold project. cbn. split; by simplify_map_eq.
Qed.

(** Membership in an explicit list of events, case by case. *)
Ltac in_events H :=
  unfold ev_skip_name, ev_skip_table, ev_processing, ev_load, ev_write, ev_mv,
    ev_moved in H;
  cbn [In] in H;
  repeat match type of H with
         | _ \/ _ => destruct H as [H|H]
         | False => destruct H
         end;
  try discriminate H.

(** ** The driver *)

(** C3.  In one pass of the loop, a read, a write or a move happens only if
    [extract_table_name] gives a non-empty name that is in [tables], the list
    read once before the loop; a file that fails either test adds one printed
    line to the log and nothing else, and the loop goes on. *)
Theorem process_file_gate (W : World) (tables : list string) (file_path : string)
    (log evs : list event) (res : result unit) :
  process_file W tables file_path log = (log ++ evs, res) ->
  ((exists e, In e evs /\ is_effect (fst e) = true) ->
   exists table_name,
     extract_table_name file_path = Some table_name /\
     table_name <> "" /\ In table_name tables) /\
  ((~ exists table_name,
        extract_table_name file_path = Some table_name /\
        table_name <> "" /\ In table_name tables) ->
   (exists msg, evs = [(Print msg, true)]) /\ res = Returned tt).
Proof.
  intros H. apply process_file_inv in H.
  assert (forall tn, extract_table_name file_path = Some tn ->
                     mem tn tables = true ->
                     exists table_name,
                       extract_table_name file_path = Some table_name /\
                       table_name <> "" /\ In table_name tables) as Hok.
  { intros tn Hn Hm. exists tn. repeat apply conj; [exact Hn | | now apply mem_In].
    intros ->. now apply extract_table_name_nonempty in Hn. }
  destruct H as [Hn | tn Hn Hm | tn Hn Hm | tn src now Hn Hm
                | tn src now Hn Hm | tn src now Hn Hm].
  - split.
    + intros (e & Hin & He). in_events Hin. subst e. discriminate He.
    + intros _. split; [eexists; reflexivity | reflexivity].
  - split.
    + intros (e & Hin & He). in_events Hin. subst e. discriminate He.
    + intros _. split; [eexists; reflexivity | reflexivity].
  - split; [intros _; now apply (Hok tn) | intros Hno; destruct Hno; now apply (Hok tn)].
  - split; [intros _; now apply (Hok tn) | intros Hno; destruct Hno; now apply (Hok tn)].
  - split; [intros _; now apply (Hok tn) | intros Hno; destruct Hno; now apply (Hok tn)].
  - split; [intros _; now apply (Hok tn) | intros Hno; destruct Hno; now apply (Hok tn)].
Qed.

Lemma process_file_gate_unregistered :
  process_file (sample_world true) ["a"] (landing_zone +:+ "b.csv") []
  = ([] ++ [ev_skip_table "b"], Returned tt) /\
  (exists msg, [ev_skip_table "b"] = [(Print msg, true)]) /\
  Returned tt = Returned tt :> result unit.
Proof.
  assert (process_file (sample_world true) ["a"] (landing_zone +:+ "b.csv") []
          = ([] ++ [ev_skip_table "b"], Returned tt)) as Hrun by reflexivity.
  split; [exact Hrun|].
  apply (process_file_gate (sample_world true) ["a"] (landing_zone +:+ "b.csv")
           [] [ev_skip_table "b"] (Returned tt) Hrun).
  intros (tn & Hn & _ & Hin). vm_compute in Hn. injection Hn as <-.
  cbn in Hin. destruct Hin as [Hin|[]]. discriminate Hin.
Defined.

(** C8.  A path none of whose segments has a leading alphanumeric/underscore
    run and a dot (a file name without extension, for one) resolves to
    [None], and the loop body skips it: one printed line, no read, no write,
    no move. *)
Theorem extract_table_name_no_dotted_segment (path : string) :
  forallb (fun seg => negb (dotted_word_segment seg)) (split "/"%char path) = true ->
  extract_table_name path = None /\
  forall (W : World) (tables : list string) (log : list event),
    process_file W tables path log = (log ++ [ev_skip_name path], Returned tt).
Proof.
  intros Hsegs.
  assert (extract_table_name path = None) as Hnone.
  { destruct (extract_table_name path) as [name|] eqn:E; [|reflexivity].
    apply extract_table_name_segment in E as (seg & Hin & Hseg).
    rewrite forallb_forall in Hsegs.
    assert (In seg (split "/"%char path)) as Hin'
      by (destruct (split "/"%char path); [destruct Hin | now right]).
    apply Hsegs in Hin'. rewrite Hseg in Hin'. discriminate Hin'. }
  split; [exact Hnone|].
  intros W tables log. unfold process_file. now rewrite Hnone.
Qed.

Lemma extract_table_name_no_dotted_segment_noext :
  extract_table_name "s3://bucket/landingzone/noext" = None /\
  forall (W : World) (tables : list string) (log : list event),
    process_file W tables "s3://bucket/landingzone/noext" log
    = (log ++ [ev_skip_name "s3://bucket/landingzone/noext"], Returned tt).
Proof.
  apply (extract_table_name_no_dotted_segment "s3://bucket/landingzone/noext").
  reflexivity.
Defined.

(** C4.  In a pass whose write committed, exactly one move is issued; it is
    the call right after the write, from the file's path to
    [archive_zone + file_path.replace(landing_zone, '')], which for a file
    listed under the landing zone is the archive zone followed by the path
    relative to the landing zone. *)
Theorem archive_after_write (W : World) (tables : list string) (file_path : string)
    (log evs : list event) (res : result unit) :
  process_file W tables file_path log = (log ++ evs, res) ->
  (exists format mode opts table rows,
     In (SaveAsTable format mode opts table rows, true) evs) ->
  length (filter (fun e => is_mv (fst e)) evs) = 1 /\
  (exists before format mode opts table rows ok after,
     evs = before ++ (SaveAsTable format mode opts table rows, true)
                  :: (Mv file_path (archive_path file_path), ok) :: after) /\
  (forall rel,
     file_path = landing_zone +:+ rel -> occurs landing_zone rel = false ->
     archive_path file_path = archive_zone +:+ rel).
Proof.
  intros H (format & mode & opts & table & rows & Hin).
  apply process_file_inv in H.
  repeat apply conj.
  - destruct H; in_events Hin; reflexivity.
  - destruct H as [Hn | tn Hn Hm | tn Hn Hm | tn src now Hn Hm
                  | tn src now Hn Hm | tn src now Hn Hm];
      in_events Hin.
    + exists [ev_processing file_path tn; ev_load file_path tn true].
      do 5 eexists. exists false, []. reflexivity.
    + exists [ev_processing file_path tn; ev_load file_path tn true].
      do 5 eexists. exists true, [ev_moved file_path]. reflexivity.
  - intros rel -> Hrel. unfold archive_path.
    now rewrite replace_prefix.
Qed.

Lemma archive_after_write_sample :
  process_file (sample_world true) ["a"; "b"] (landing_zone +:+ "a.csv") []
  = ([] ++ [ev_processing (landing_zone +:+ "a.csv") "a";
            ev_load (landing_zone +:+ "a.csv") "a" true;
            ev_write "a" (augmented (landing_zone +:+ "a.csv") sample_rows 2) true;
            ev_mv (landing_zone +:+ "a.csv") true;
            ev_moved (landing_zone +:+ "a.csv")],
     Returned tt) /\
  archive_path (landing_zone +:+ "a.csv") = archive_zone +:+ "a.csv".
Proof.
  assert (process_file (sample_world true) ["a"; "b"] (landing_zone +:+ "a.csv") []
          = ([] ++ [ev_processing (landing_zone +:+ "a.csv") "a";
                    ev_load (landing_zone +:+ "a.csv") "a" true;
                    ev_write "a" (augmented (landing_zone +:+ "a.csv") sample_rows 2) true;
                    ev_mv (landing_zone +:+ "a.csv") true;
                    ev_moved (landing_zone +:+ "a.csv")],
             Returned tt)) as Hrun by (vm_compute; reflexivity).
  split; [exact Hrun|].
  refine (proj2 (proj2 (archive_after_write _ _ _ _ _ _ Hrun _)) "a.csv" _ _).
  - do 5 eexists. right. right. left. reflexivity.
  - reflexivity.
  - reflexivity.
Defined.

(** C9.  The rows a pass hands to the writer all carry [source_file], equal
    to the path of the file, and [load_timestamp], equal to the start time of
    the one query the write runs: one value for all the rows of the file. *)
Theorem provenance_columns (W : World) (tables : list string) (file_path : string)
    (log evs : list event) (res : result unit)
    (format mode table : string) (opts : gmap string string) (rows : list row)
    (ok : bool) :
  process_file W tables file_path log = (log ++ evs, res) ->
  In (SaveAsTable format mode opts table rows, ok) evs ->
  exists now : Z,
    forall r, In r rows ->
      r !! "source_file" = Some (VStr file_path) /\
      r !! "load_timestamp" = Some (VTimestamp now).
Proof.
  intros H Hin. apply process_file_inv in H.
  destruct H as [Hn | tn Hn Hm | tn Hn Hm | tn src now Hn Hm
                | tn src now Hn Hm | tn src now Hn Hm];
    in_events Hin; injection Hin as _ _ _ _ <- _;
    exists now; intros r Hr; exact (augmented_row _ _ _ _ Hr).
Qed.

Lemma provenance_columns_sample :
  exists now : Z,
    forall r, In r (augmented (landing_zone +:+ "a.csv") sample_rows 2) ->
      r !! "source_file" = Some (VStr (landing_zone +:+ "a.csv")) /\
      r !! "load_timestamp" = Some (VTimestamp now).
Proof.
  refine (provenance_columns (sample_world true) ["a"; "b"] (landing_zone +:+ "a.csv")
            []
            [ev_processing (landing_zone +:+ "a.csv") "a";
             ev_load (landing_zone +:+ "a.csv") "a" true;
             ev_write "a" (augmented (landing_zone +:+ "a.csv") sample_rows 2) true;
             ev_mv (landing_zone +:+ "a.csv") true;
             ev_moved (landing_zone +:+ "a.csv")]
            (Returned tt) "delta" "append" (table_id "a") {[ "mergeSchema" := "true" ]}
            _ true _ _).
  - vm_compute. reflexivity.
  - right. right. left. reflexivity.
Defined.

(** C2, as the code has it.  When the write of a file does not commit, the
    file is not moved and the exception is not caught: the pass ends with the
    write error right after the failed write, and so does the loop, whatever
    files are still to come; none of them is read, written or moved. *)
Theorem write_failure_ends_loop (W : World) (tables : list string)
    (file_path : string) (rest : list string) (log evs : list event)
    (res : result unit) :
  process_file W tables file_path log = (log ++ evs, res) ->
  (exists format mode opts table rows,
     In (SaveAsTable format mode opts table rows, false) evs) ->
  (forall e, In e evs -> is_mv (fst e) = false) /\
  res = Raised WriteError /\
  for_each (process_file W tables) (file_path :: rest) log
  = (log ++ evs, Raised WriteError).
Proof.
  intros H (format & mode & opts & table & rows & Hin).
  pose proof (process_file_inv _ _ _ _ _ _ H) as R.
  destruct R as [Hn | tn Hn Hm | tn Hn Hm | tn src now Hn Hm
                | tn src now Hn Hm | tn src now Hn Hm];
    in_events Hin.
  repeat apply conj.
  - intros e He. in_events He; subst e; reflexivity.
  - reflexivity.
  - now apply for_each_raised.
Qed.

Lemma write_failure_ends_loop_sample :
  for_each (process_file (sample_world false) ["a"; "b"]) sample_files []
  = ([] ++ [ev_processing (landing_zone +:+ "a.csv") "a";
            ev_load (landing_zone +:+ "a.csv") "a" true;
            ev_write "a" (augmented (landing_zone +:+ "a.csv") sample_rows 2) false],
     Raised WriteError).
Proof.
  refine (proj2 (proj2 (write_failure_ends_loop (sample_world false) ["a"; "b"]
                          (landing_zone +:+ "a.csv") [landing_zone +:+ "b.csv"] [] _
                          (Raised WriteError) _ _))).
  - vm_compute. reflexivity.
  - do 5 eexists. right. right. left. reflexivity.
Defined.

(** C2, as the claim has it, fails: with two registered files listed and a
    writer that does not commit, the run ends with the write error of the
    first file, and the second file, listed and registered, gets no pass at
    all. *)
Lemma write_failure_aborts_run :
  main (sample_world false) []
  = ([(ListTables "entity_resolution_dev.bronze", true);
      (PrintList "Available tables:" ["a"; "b"], true);
      (Print "Configuration loaded. Ready to process files.", true);
      (Ls "s3://your-bucket/landing-zone/", true);
      ev_processing "s3://your-bucket/landing-zone/a.csv" "a";
      ev_load "s3://your-bucket/landing-zone/a.csv" "a" true;
      ev_write "a" (augmented "s3://your-bucket/landing-zone/a.csv" sample_rows 6) false],
     Raised WriteError) /\
  In "s3://your-bucket/landing-zone/b.csv" sample_files /\
  extract_table_name "s3://your-bucket/landing-zone/b.csv" = Some "b" /\
  mem "b" ["a"; "b"] = true.
Proof.
  repeat apply conj; [vm_compute; reflexivity | right; left; reflexivity
                     | reflexivity | reflexivity].
Qed.

(** * More of the notebook *)

(** ** The name resolver, in full *)

Lemma span_word_first_segment (t : string) :
  span_word (hd "" (split "/"%char t)) = span_word t.
Proof.
  induction t as [|c t IH]; [reflexivity|].
  cbn [split].
  destruct (Ascii.eqb_spec c "/"%char) as [->|Hs]; [reflexivity|].
  destruct (split "/"%char t) as [|seg rest] eqn:E;
    [now apply split_nonempty in E|].
  cbn [hd span_word] in *. now rewrite IH.
Qed.

Lemma dotted_first_segment (t : string) :
  dotted_word_segment (hd "" (split "/"%char t)) = starts_word t && dot_ahead t.
Proof.
  unfold dotted_word_segment.
  now rewrite <- starts_word_first_segment, <- dot_ahead_first_segment.
Qed.

(** X1.  [extract_table_name] returns the leading run of
    alphanumeric/underscore characters of the leftmost segment that follows a
    ['/'], begins with such a character and has a dot; it returns [None] when
    no segment after a ['/'] is of that kind.  What precedes the first ['/']
    is never looked at. *)
Theorem extract_table_name_leftmost_segment (path : string) :
  extract_table_name path
  = option_map span_word (List.find dotted_word_segment (tl (split "/"%char path))).
Proof.
  induction path as [|c t IH]; [reflexivity|].
  rewrite extract_table_name_cons. cbn [split].
  destruct (Ascii.eqb_spec c "/"%char) as [->|Hs].
  - cbn [tl andb].
    destruct (split "/"%char t) as [|seg rest] eqn:E;
      [now apply split_nonempty in E|].
    cbn [List.find].
    pose proof (dotted_first_segment t) as Hd.
    pose proof (span_word_first_segment t) as Hsp.
    rewrite E in Hd, Hsp. cbn [hd] in Hd, Hsp. rewrite Hd.
    destruct (starts_word t && dot_ahead t).
    + cbn [option_map]. now rewrite Hsp.
    + rewrite IH, ?E. reflexivity.
  - cbn [andb]. rewrite IH.
    destruct (split "/"%char t) as [|seg rest] eqn:E;
      [now apply split_nonempty in E | reflexivity].
Qed.

Lemma span_word_all_word (t : string) : all_word (span_word t) = true.
Proof.
  unfold all_word. induction t as [|c t IH]; [reflexivity|].
  cbn [span_word]. destruct (word_char c) eqn:Hw; [|reflexivity].
  cbn. now rewrite Hw, IH.
Qed.

Lemma startswith_span_word (t : string) : startswith (span_word t) t = true.
Proof.
  induction t as [|c t IH]; [reflexivity|].
  cbn [span_word]. destruct (word_char c); [|reflexivity].
  cbn. now rewrite Ascii.eqb_refl, IH.
Qed.

(** X2.  A name that [extract_table_name] returns is not empty, is made of
    alphanumeric/underscore characters only, and stands in the path right
    after a ['/'], in the case it has there. *)
Theorem extract_table_name_shape (path name : string) :
  extract_table_name path = Some name ->
  name <> "" /\ all_word name = true /\ occurs ("/" +:+ name) path = true.
Proof.
  intros H. repeat apply conj.
  - intros ->. now apply extract_table_name_nonempty in H.
  - revert H. induction path as [|c t IH]; [discriminate|].
    rewrite extract_table_name_cons.
    destruct (Ascii.eqb c "/"%char && starts_word t && dot_ahead t); [|exact IH].
    intros [= <-]. apply span_word_all_word.
  - revert H. induction path as [|c t IH]; [discriminate|].
    rewrite extract_table_name_cons.
    destruct (Ascii.eqb c "/"%char && starts_word t && dot_ahead t) eqn:E.
    + intros [= <-]. apply andb_prop in E as [E _]. apply andb_prop in E as [Hc _].
      apply Ascii.eqb_eq in Hc as ->.
      cbn [occurs]. rewrite string_app_cons, string_app_nil_l.
      cbn [startswith]. now rewrite Ascii.eqb_refl, startswith_span_word.
    + intros H. cbn [occurs]. rewrite (IH H). apply orb_true_r.
Qed.

Lemma extract_table_name_shape_mixed_case :
  extract_table_name "s3://b/in/Edm_Entity-v2.final.CSV" = Some "Edm_Entity" /\
  "Edm_Entity" <> "" /\ all_word "Edm_Entity" = true /\
  occurs ("/" +:+ "Edm_Entity") "s3://b/in/Edm_Entity-v2.final.CSV" = true.
Proof.
  assert (extract_table_name "s3://b/in/Edm_Entity-v2.final.CSV" = Some "Edm_Entity")
    as H by reflexivity.
  split; [exact H|].
  exact (extract_table_name_shape "s3://b/in/Edm_Entity-v2.final.CSV" "Edm_Entity" H).
Defined.

(** ** The format detector, in full *)

(** X3.  [detect_format] never returns anything but csv, json, parquet or
    txt, whatever the path. *)
Theorem detect_format_known (path : string) :
  In (detect_format path) ["csv"; "json"; "parquet"; "txt"].
Proof.
  unfold detect_format. cbv zeta.
  destruct (mem (lower (last_item (split "."%char path))) known_formats) eqn:E.
  - now apply mem_In in E.
  - now left.
Qed.



(** ** The reader options, in full *)

(** X5.  The options hold no key beyond the three base keys and, for csv and
    txt only, [header] and [delimiter]. *)
Theorem options_keys (file_format table_name : string) :
  dom (options file_format table_name)
  = ({[ "cloudFiles.format"; "cloudFiles.schemaLocation";
        "cloudFiles.inferColumnTypes" ]} : gset string)
    ∪ (if decide (file_format = "csv" \/ file_format = "txt")
       then {[ "header"; "delimiter" ]}
       else ∅).
Proof.
  unfold options.
  destruct (String.eqb_spec file_format "csv") as [->|Hcsv].
  - cbn [String.eqb Ascii.eqb Bool.eqb].
    rewrite !dom_insert_L, dom_empty_L. case_decide; [set_solver | tauto].
  - destruct (String.eqb_spec file_format "txt") as [->|Htxt].
    + rewrite !dom_insert_L, dom_empty_L. case_decide; [set_solver | tauto].
    + rewrite !dom_insert_L, dom_empty_L. case_decide; [tauto | set_solver].
Qed.

(** X6.  A file whose extension is none of the four known ones is read as
    csv: the reader gets the format csv, a header line and the comma as
    delimiter. *)
Theorem unknown_extension_read_as_csv (stem ext table_name : string) :
  contains "."%char ext = false ->
  ~ In (lower ext) ["csv"; "json"; "parquet"; "txt"] ->
  options (detect_format (stem +:+ "." +:+ ext)) table_name !! "cloudFiles.format"
  = Some "csv" /\
  options (detect_format (stem +:+ "." +:+ ext)) table_name !! "header" = Some "true" /\
  options (detect_format (stem +:+ "." +:+ ext)) table_name !! "delimiter" = Some ",".
Proof.
  intros Hext Hnot.
  assert (detect_format (stem +:+ "." +:+ ext) = "csv") as ->.
  { unfold detect_format.
    rewrite (last_segment (stem +:+ "." +:+ ext) ext) by (eauto || exact Hext).
    cbv zeta. destruct (mem (lower ext) known_formats) eqn:E; [|reflexivity].
    apply mem_In in E. contradiction. }
  unfold options. cbn [String.eqb Ascii.eqb Bool.eqb].
  repeat apply conj; by simplify_map_eq.
Qed.

Lemma unknown_extension_read_as_csv_xlsx :
  options (detect_format ("s3://b/in/edm_entity" +:+ "." +:+ "XLSX")) "edm_entity"
    !! "cloudFiles.format" = Some "csv" /\
  options (detect_format ("s3://b/in/edm_entity" +:+ "." +:+ "XLSX")) "edm_entity"
    !! "header" = Some "true" /\
  options (detect_format ("s3://b/in/edm_entity" +:+ "." +:+ "XLSX")) "edm_entity"
    !! "delimiter" = Some ",".
Proof.
  apply (unknown_extension_read_as_csv "s3://b/in/edm_entity" "XLSX" "edm_entity").
  - reflexivity.
  - cbn. intros [H|[H|[H|[H|[]]]]]; discriminate H.
Defined.

(** ** The archive path *)

(** X7.  A path in which the landing zone does not occur is archived under
    the archive zone with the whole path appended: [replace] finds nothing
    to remove. *)
Theorem archive_path_outside_landing_zone (file_path : string) :
  occurs landing_zone file_path = false ->
  archive_path file_path = archive_zone +:+ file_path.
Proof.
  intros H. unfold archive_path, replace, landing_zone in *.
  now rewrite replace_scan_absent.
Qed.

Lemma archive_path_outside_landing_zone_dbfs :
  archive_path "dbfs:/mnt/landing/a.csv"
  = archive_zone +:+ "dbfs:/mnt/landing/a.csv".
Proof.
  apply (archive_path_outside_landing_zone "dbfs:/mnt/landing/a.csv").
  reflexivity.
Defined.

(** ** The two added columns *)



(** ** The loop and the invocation *)

(** The loop goes one of the ways of [loop_run]. *)
Lemma for_each_run (W : World) (tables files : list string) (log : list event) :
  exists evs res,
    for_each (process_file W tables) files log = (log ++ evs, res) /\
    loop_run tables files evs res.
Proof.
  revert log. induction files as [|file_path rest IH]; intros log.
  - exists [], (Returned tt). split; [|constructor].
    cbn. unfold mret, Run_ret. now rewrite app_nil_r.
  - destruct (process_file_run W tables file_path log) as (evs & res & E & R).
    destruct res as [[]|e].
    + destruct (IH (log ++ evs)) as (evs' & res' & E' & R').
      exists (evs ++ evs'), res'. split; [|now apply loop_next].
      rewrite (for_each_returned _ _ _ _ _ E), E'. now rewrite app_assoc.
    + exists evs, (Raised e). split; [|now apply loop_raised].
      now apply for_each_raised.
Qed.

(** The notebook goes one of the ways of [invocation]. *)
Lemma main_invocation (W : World) :
  exists evs res, main W [] = (evs, res) /\ invocation W evs res.
Proof.
  unfold main, mbind, Run_bind, listTables, print_list, print, ls.
  fold namespace.
  destruct (catalog_listTables W [] namespace) as [tables|] eqn:Hcat; cbn [app].
  - fold (preamble tables).
    destruct (fs_ls W (preamble tables) landing_zone) as [files|] eqn:Hls.
    + destruct (for_each_run W tables files (preamble tables ++ [(Ls landing_zone, true)]))
        as (evs & res & E & R).
      unfold preamble in E. cbn [app] in E. rewrite E.
      exists (preamble tables ++ (Ls landing_zone, true) :: evs ++ closing res), res.
      split; [|now apply (inv_loop W tables files)].
      unfold preamble, ev_complete.
      destruct res as [[]|e]; cbn [closing app]; rewrite ?app_nil_r; reflexivity.
    + do 2 eexists. split; [reflexivity|]. now apply inv_no_listing.
  - do 2 eexists. split; [reflexivity|]. now apply inv_no_catalog.
Qed.

(** What a read, a write or a move in one pass looks like. *)
Lemma file_run_effect (tables : list string) (file_path : string)
    (evs : list event) (res : result unit) (e : event) :
  file_run tables file_path evs res ->
  In e evs -> is_effect (fst e) = true ->
  exists table_name,
    extract_table_name file_path = Some table_name /\
    mem table_name tables = true /\
    (e = ev_load file_path table_name (snd e) \/
     (exists source now,
        e = ev_write table_name (augmented file_path source now) (snd e)) \/
     e = ev_mv file_path (snd e)).
Proof.
  intros R Hin He.
  destruct R as [Hn | tn Hn Hm | tn Hn Hm | tn src now Hn Hm
                | tn src now Hn Hm | tn src now Hn Hm];
    cbn [In] in Hin;
    repeat match type of Hin with
           | _ \/ _ => destruct Hin as [Hin|Hin]
           | False => destruct Hin
           end;
    subst e; try discriminate He;
    exists tn; (split; [exact Hn|]); (split; [exact Hm|]);
    first [ left; reflexivity
          | right; left; do 2 eexists; reflexivity
          | right; right; reflexivity ].
Qed.

(** An event of the loop belongs to the pass of a listed file. *)
Lemma loop_run_pass (tables files : list string) (evs : list event)
    (res : result unit) (e : event) :
  loop_run tables files evs res -> In e evs ->
  exists file_path pevs pres before after,
    In file_path files /\ file_run tables file_path pevs pres /\
    In e pevs /\ evs = before ++ pevs ++ after.
Proof.
  induction 1 as [|fp rest evs x R|fp rest evs evs' res R L IH]; intros Hin.
  - destruct Hin.
  - exists fp, evs, (Raised x), [], []. rewrite app_nil_r.
    repeat apply conj; auto. now left.
  - apply in_app_or in Hin as [Hin|Hin].
    + exists fp, evs, (Returned tt), [], evs'.
      repeat apply conj; auto. now left.
    + destruct (IH Hin) as (fp' & pevs & pres & before & after & Hf & R' & He & ->).
      exists fp', pevs, pres, (evs ++ before), after.
      repeat apply conj; auto; [now right | now rewrite <- app_assoc].
Qed.

(** A read, a write or a move of an invocation belongs to the loop, which
    runs on the tables and the files listed at the start. *)
Lemma invocation_effect (W : World) (evs : list event) (res : result unit)
    (e : event) :
  invocation W evs res -> In e evs -> is_effect (fst e) = true ->
  exists tables files levs lres,
    catalog_listTables W [] namespace = Some tables /\
    fs_ls W (preamble tables) landing_zone = Some files /\
    loop_run tables files levs lres /\ In e levs /\
    evs = preamble tables ++ (Ls landing_zone, true) :: levs ++ closing lres.
Proof.
  intros I Hin He.
  destruct I as [Hcat | tables Hcat Hls | tables files levs lres Hcat Hls L].
  - destruct Hin as [<-|[]]. discriminate He.
  - apply in_app_or in Hin as [Hin|[<-|[]]]; [|discriminate He].
    unfold preamble in Hin. cbn [In] in Hin.
    destruct Hin as [<-|[<-|[<-|[]]]]; discriminate He.
  - exists tables, files, levs, lres. repeat apply conj; auto.
    apply in_app_or in Hin as [Hin|[<-|Hin]].
    + unfold preamble in Hin. cbn [In] in Hin.
      destruct Hin as [<-|[<-|[<-|[]]]]; discriminate He.
    + discriminate He.
    + apply in_app_or in Hin as [Hin|Hin]; [exact Hin|].
      destruct lres; cbn in Hin; [destruct Hin as [<-|[]]; discriminate He | destruct Hin].
Qed.

(** X9.  Whatever the world answers, every write of an invocation appends
    (format delta, mode append, schema merge on) to [catalog.schema.name] for
    a name in the list of tables read at the very start of the invocation. *)
Theorem run_writes_registered_tables (W : World) (format mode table : string)
    (opts : gmap string string) (rows : list row) (ok : bool) :
  In (SaveAsTable format mode opts table rows, ok) (fst (main W [])) ->
  exists tables table_name,
    catalog_listTables W [] namespace = Some tables /\
    In table_name tables /\
    table = table_id table_name /\
    format = "delta" /\ mode = "append" /\ opts = {[ "mergeSchema" := "true" ]}.
Proof.
  intros Hin.
  destruct (main_invocation W) as (evs & res & E & I). rewrite E in Hin. cbn [fst] in Hin.
  destruct (invocation_effect W evs res _ I Hin eq_refl)
    as (tables & files & levs & lres & Hcat & Hls & L & Hl & _).
  destruct (loop_run_pass _ _ _ _ _ L Hl)
    as (fp & pevs & pres & before & after & Hf & R & Hp & _).
  destruct (file_run_effect _ _ _ _ _ R Hp eq_refl)
    as (tn & Hn & Hm & [He|[(src & now & He)|He]]); try discriminate He.
  injection He as -> -> -> -> _.
  exists tables, tn. repeat apply conj; auto. now apply mem_In.
Qed.

Lemma run_writes_registered_tables_sample :
  exists tables table_name,
    catalog_listTables (sample_world true) [] namespace = Some tables /\
    In table_name tables /\
    table_id "b" = table_id table_name /\
    "delta" = "delta" /\ "append" = "append" /\
    ({[ "mergeSchema" := "true" ]} : gmap string string) = {[ "mergeSchema" := "true" ]}.
Proof.
  refine (run_writes_registered_tables (sample_world true) "delta" "append"
            (table_id "b") {[ "mergeSchema" := "true" ]}
            (augmented (landing_zone +:+ "b.csv") sample_rows 11) true _).
  vm_compute. do 11 right. left. reflexivity.
Defined.

(** X10.  Every read of an invocation is of a file that was listed under the
    landing zone and that resolves to a table of the list read at the start;
    the reader is asked for the format [cloudFiles] with the options built
    for the detected format of that file and that table. *)
Theorem run_reads_listed_files (W : World) (format path : string)
    (opts : gmap string string) (ok : bool) :
  In (Load format opts path, ok) (fst (main W [])) ->
  exists tables files table_name,
    catalog_listTables W [] namespace = Some tables /\
    fs_ls W (preamble tables) landing_zone = Some files /\
    In path files /\
    extract_table_name path = Some table_name /\ In table_name tables /\
    format = "cloudFiles" /\ opts = options (detect_format path) table_name.
Proof.
  intros Hin.
  destruct (main_invocation W) as (evs & res & E & I). rewrite E in Hin. cbn [fst] in Hin.
  destruct (invocation_effect W evs res _ I Hin eq_refl)
    as (tables & files & levs & lres & Hcat & Hls & L & Hl & _).
  destruct (loop_run_pass _ _ _ _ _ L Hl)
    as (fp & pevs & pres & before & after & Hf & R & Hp & _).
  destruct (file_run_effect _ _ _ _ _ R Hp eq_refl)
    as (tn & Hn & Hm & [He|[(src & now & He)|He]]); try discriminate He.
  injection He as -> -> ->.
  exists tables, files, tn. repeat apply conj; auto. now apply mem_In.
Qed.

Lemma run_reads_listed_files_sample :
  exists tables files table_name,
    catalog_listTables (sample_world true) [] namespace = Some tables /\
    fs_ls (sample_world true) (preamble tables) landing_zone = Some files /\
    In (landing_zone +:+ "a.csv") files /\
    extract_table_name (landing_zone +:+ "a.csv") = Some table_name /\
    In table_name tables /\
    "cloudFiles" = "cloudFiles" /\
    options "csv" "a" = options (detect_format (landing_zone +:+ "a.csv")) table_name.
Proof.
  refine (run_reads_listed_files (sample_world true) "cloudFiles"
            (landing_zone +:+ "a.csv") (options "csv" "a") true _).
  vm_compute. do 5 right. left. reflexivity.
Defined.

(** In one pass at most one file is read: the file of the pass. *)
Lemma file_run_loaded (tables : list string) (file_path : string)
    (evs : list event) (res : result unit) :
  file_run tables file_path evs res ->
  loaded_paths evs = [] \/ loaded_paths evs = [file_path].
Proof. intros R. destruct R; cbn; auto. Qed.

Lemma loaded_paths_app (evs evs' : list event) :
  loaded_paths (evs ++ evs') = loaded_paths evs ++ loaded_paths evs'.
Proof. unfold loaded_paths. apply flat_map_app. Qed.

Lemma loop_run_loaded (tables files : list string) (evs : list event)
    (res : result unit) :
  loop_run tables files evs res -> sublist (loaded_paths evs) files.
Proof.
  induction 1 as [|fp rest evs x R|fp rest evs evs' res R L IH].
  - constructor.
  - destruct (file_run_loaded _ _ _ _ R) as [->| ->].
    + apply sublist_nil_l.
    + apply sublist_skip, sublist_nil_l.
  - rewrite loaded_paths_app.
    destruct (file_run_loaded _ _ _ _ R) as [->| ->]; cbn [app].
    + now apply sublist_cons.
    + now apply sublist_skip.
Qed.

(** X11.  The files are read in the order of the listing, each at most once
    for each time it is listed: the paths handed to the reader, in call
    order, are the listing with some entries left out. *)
Theorem run_reads_in_listing_order (W : World) (tables files : list string) :
  catalog_listTables W [] namespace = Some tables ->
  fs_ls W (preamble tables) landing_zone = Some files ->
  sublist (loaded_paths (fst (main W []))) files.
Proof.
  intros Hcat Hls.
  destruct (main_invocation W) as (evs & res & E & I). rewrite E. cbn [fst].
  destruct I as [Hcat' | tables' Hcat' Hls' | tables' files' levs lres Hcat' Hls' L];
    rewrite Hcat in Hcat'; try discriminate Hcat';
    injection Hcat' as <-; rewrite Hls in Hls'; try discriminate Hls'.
  injection Hls' as <-.
  rewrite loaded_paths_app. cbn [preamble loaded_paths flat_map fst app].
  fold (loaded_paths (levs ++ closing lres)). rewrite loaded_paths_app.
  assert (loaded_paths (closing lres) = []) as -> by (destruct lres; reflexivity).
  rewrite app_nil_r. exact (loop_run_loaded _ _ _ _ L).
Qed.

Lemma run_reads_in_listing_order_sample :
  sublist (loaded_paths (fst (main (sample_world true) []))) sample_files.
Proof.
  apply (run_reads_in_listing_order (sample_world true) ["a"; "b"] sample_files);
    reflexivity.
Defined.

(** A move in one pass: of the file of the pass, to its archive path, right
    after the committed write. *)
Lemma file_run_mv (tables : list string) (file_path : string) (evs : list event)
    (res : result unit) (src dst : string) (ok : bool) :
  file_run tables file_path evs res ->
  In (Mv src dst, ok) evs ->
  src = file_path /\ dst = archive_path file_path /\
  exists table_name rows pre post,
    evs = pre ++ ev_write table_name rows true :: (Mv src dst, ok) :: post /\
    extract_table_name file_path = Some table_name /\
    mem table_name tables = true.
Proof.
  intros R Hin.
  destruct R as [Hn | tn Hn Hm | tn Hn Hm | tn source now Hn Hm
                | tn source now Hn Hm | tn source now Hn Hm];
    in_events Hin; injection Hin as <- <- <-;
    (split; [reflexivity|]); (split; [reflexivity|]);
    exists tn, (augmented file_path source now),
      [ev_processing file_path tn; ev_load file_path tn true].
  - exists []. auto.
  - exists [ev_moved file_path]. auto.
Qed.

(** X12.  A file is moved only if it was listed, resolves to a table of the
    list read at the start, and its write committed: every move of an
    invocation goes to the archive path of its source and is the call right
    after a committed write to the table of that source. *)
Theorem run_moves_after_commit (W : World) (src dst : string) (ok : bool) :
  In (Mv src dst, ok) (fst (main W [])) ->
  dst = archive_path src /\
  exists tables files table_name rows before after,
    catalog_listTables W [] namespace = Some tables /\
    fs_ls W (preamble tables) landing_zone = Some files /\
    In src files /\
    extract_table_name src = Some table_name /\ In table_name tables /\
    fst (main W [])
    = before ++ ev_write table_name rows true :: (Mv src dst, ok) :: after.
Proof.
  intros Hin.
  destruct (main_invocation W) as (evs & res & E & I). rewrite E in *. cbn [fst] in *.
  destruct (invocation_effect W evs res _ I Hin eq_refl)
    as (tables & files & levs & lres & Hcat & Hls & L & Hl & ->).
  destruct (loop_run_pass _ _ _ _ _ L Hl)
    as (fp & pevs & pres & before & after & Hf & R & Hp & ->).
  destruct (file_run_mv _ _ _ _ _ _ _ R Hp)
    as (-> & -> & tn & rows & pre & post & -> & Hn & Hm).
  split; [reflexivity|].
  exists tables, files, tn, rows,
    (preamble tables ++ (Ls landing_zone, true) :: before ++ pre),
    (post ++ after ++ closing lres).
  repeat apply conj; auto; [now apply mem_In|].
  rewrite <- !app_assoc. cbn [app]. rewrite <- !app_assoc. cbn [app].
  reflexivity.
Qed.

Lemma run_moves_after_commit_sample :
  archive_path (landing_zone +:+ "b.csv") = archive_path (landing_zone +:+ "b.csv") /\
  exists tables files table_name rows before after,
    catalog_listTables (sample_world true) [] namespace = Some tables /\
    fs_ls (sample_world true) (preamble tables) landing_zone = Some files /\
    In (landing_zone +:+ "b.csv") files /\
    extract_table_name (landing_zone +:+ "b.csv") = Some table_name /\
    In table_name tables /\
    fst (main (sample_world true) [])
    = before ++ ev_write table_name rows true
             :: (Mv (landing_zone +:+ "b.csv") (archive_path (landing_zone +:+ "b.csv")), true)
             :: after.
Proof.
  refine (run_moves_after_commit (sample_world true) (landing_zone +:+ "b.csv")
            (archive_path (landing_zone +:+ "b.csv")) true _).
  vm_compute. do 12 right. left. reflexivity.
Defined.

Lemma file_run_counts (tables : list string) (file_path : string)
    (evs : list event) (res : result unit) :
  file_run tables file_path evs res ->
  length (List.filter (fun e => is_mv (fst e)) evs)
  = length (List.filter is_commit evs).
Proof. intros R. destruct R; reflexivity. Qed.

Lemma loop_run_counts (tables files : list string) (evs : list event)
    (res : result unit) :
  loop_run tables files evs res ->
  length (List.filter (fun e => is_mv (fst e)) evs)
  = length (List.filter is_commit evs).
Proof.
  induction 1 as [|fp rest evs x R|fp rest evs evs' res R L IH].
  - reflexivity.
  - exact (file_run_counts _ _ _ _ R).
  - rewrite !List.filter_app, !length_app, IH, (file_run_counts _ _ _ _ R).
    reflexivity.
Qed.

(** X13.  In every invocation, however it ends, as many moves are issued as
    writes committed. *)
Theorem run_moves_equal_commits (W : World) :
  length (List.filter (fun e => is_mv (fst e)) (fst (main W [])))
  = length (List.filter is_commit (fst (main W []))).
Proof.
  destruct (main_invocation W) as (evs & res & E & I). rewrite E. cbn [fst].
  destruct I as [Hcat | tables Hcat Hls | tables files levs lres Hcat Hls L].
  - reflexivity.
  - reflexivity.
  - rewrite !List.filter_app. cbn [preamble List.filter is_mv is_commit fst app].
    rewrite !List.filter_app, !length_app, (loop_run_counts _ _ _ _ L).
    destruct lres; reflexivity.
Qed.

(** A pass of a loop that returned has returned, and its events are in the
    log of the loop. *)
Lemma loop_returned_pass (tables files : list string) (evs : list event)
    (file_path : string) :
  loop_run tables files evs (Returned tt) -> In file_path files ->
  exists pevs,
    file_run tables file_path pevs (Returned tt) /\
    forall e, In e pevs -> In e evs.
Proof.
  intros L. remember (Returned tt) as res eqn:Hres.
  revert file_path.
  induction L as [|fp rest evs x R|fp rest evs evs' res R L IH];
    intros file_path Hin.
  - destruct Hin.
  - discriminate Hres.
  - subst res. destruct Hin as [<-|Hin].
    + exists evs. split; [exact R|]. intros e He. apply in_or_app. now left.
    + destruct (IH eq_refl file_path Hin) as (pevs & R' & Hsub).
      exists pevs. split; [exact R'|]. intros e He. apply in_or_app. right. auto.
Qed.

(** X14.  An invocation that returns has listed the tables and the files,
    has moved every listed file that passes both tests of the loop to its
    archive path, and has printed the completion line last. *)
Theorem run_complete_archives_eligible (W : World) :
  snd (main W []) = Returned tt ->
  exists tables files before,
    catalog_listTables W [] namespace = Some tables /\
    fs_ls W (preamble tables) landing_zone = Some files /\
    fst (main W []) = before ++ [ev_complete] /\
    forall file_path,
      In file_path files -> eligible tables file_path = true ->
      In (ev_mv file_path true) (fst (main W [])).
Proof.
  intros Hres.
  destruct (main_invocation W) as (evs & res & E & I). rewrite E in *.
  cbn [fst snd] in *. subst res.
  remember (Returned tt) as res eqn:Hres.
  destruct I as [Hcat | tables Hcat Hls | tables files levs lres Hcat Hls L];
    try discriminate Hres.
  subst lres. cbn [closing].
  exists tables, files, (preamble tables ++ (Ls landing_zone, true) :: levs).
  repeat apply conj; [exact Hcat | exact Hls | reflexivity |].
  intros fp Hf Hel.
  destruct (loop_returned_pass _ _ _ _ L Hf) as (pevs & R & Hsub).
  apply in_or_app. right. right. apply in_or_app. left. apply Hsub.
  unfold eligible in Hel.
  inversion R as [Hn | tn Hn Hm | | | | tn source now Hn Hm]; subst.
  - rewrite Hn in Hel. discriminate Hel.
  - rewrite Hn, Hm in Hel. now rewrite andb_false_r in Hel.
  - cbn [In]. auto.
Qed.

Lemma run_complete_archives_eligible_sample :
  exists tables files before,
    catalog_listTables (sample_world true) [] namespace = Some tables /\
    fs_ls (sample_world true) (preamble tables) landing_zone = Some files /\
    fst (main (sample_world true) []) = before ++ [ev_complete] /\
    forall file_path,
      In file_path files -> eligible tables file_path = true ->
      In (ev_mv file_path true) (fst (main (sample_world true) [])).
Proof.
  apply (run_complete_archives_eligible (sample_world true)).
  vm_compute. reflexivity.
Defined.

(** After calls that all returned, a log that ends well still ends well. *)
Lemma ends_well_app (evs evs' : list event) (res : result unit) :
  (forall e, In e evs -> snd e = true) ->
  ends_well evs' res -> ends_well (evs ++ evs') res.
Proof.
  intros Hok. destruct res as [u|x]; cbn [ends_well].
  - intros H e He. apply in_app_or in He as [He|He]; auto.
  - intros (before & c & -> & Hb & Hc).
    exists (evs ++ before), c. repeat apply conj; [now rewrite app_assoc | | exact Hc].
    intros e He. apply in_app_or in He as [He|He]; auto.
Qed.

Lemma file_run_ends_well (tables : list string) (file_path : string)
    (evs : list event) (res : result unit) :
  file_run tables file_path evs res -> ends_well evs res.
Proof.
  intros R.
  destruct R as [Hn | tn Hn Hm | tn Hn Hm | tn source now Hn Hm
                | tn source now Hn Hm | tn source now Hn Hm];
    cbn [ends_well].
  - intros e He. in_events He; now subst e.
  - intros e He. in_events He; now subst e.
  - exists [ev_processing file_path tn], (fst (ev_load file_path tn false)).
    repeat apply conj; [reflexivity | | reflexivity].
    intros e He. in_events He; now subst e.
  - exists [ev_processing file_path tn; ev_load file_path tn true],
      (fst (ev_write tn (augmented file_path source now) false)).
    repeat apply conj; [reflexivity | | reflexivity].
    intros e He. in_events He; now subst e.
  - exists [ev_processing file_path tn; ev_load file_path tn true;
            ev_write tn (augmented file_path source now) true],
      (fst (ev_mv file_path false)).
    repeat apply conj; [reflexivity | | reflexivity].
    intros e He. in_events He; now subst e.
  - intros e He. in_events He; now subst e.
Qed.

Lemma loop_run_ends_well (tables files : list string) (evs : list event)
    (res : result unit) :
  loop_run tables files evs res -> ends_well evs res.
Proof.
  induction 1 as [|fp rest evs x R|fp rest evs evs' res R L IH].
  - intros e [].
  - exact (file_run_ends_well _ _ _ _ R).
  - apply ends_well_app; [|exact IH].
    exact (file_run_ends_well _ _ _ _ R).
Qed.

(** X15.  No exception is caught anywhere: if the invocation returns, every
    call it made returned; if it raises, the call that raised (a table
    listing for a catalog error, a directory listing for a listing error, a
    load for a read error, a write for a write error, a move for a move
    error) is the last call of the invocation, and every call before it
    returned. *)
Theorem run_stops_at_first_failure (W : World) :
  match snd (main W []) with
  | Returned _ => forall e, In e (fst (main W [])) -> snd e = true
  | Raised x =>
      exists before c,
        fst (main W []) = before ++ [(c, false)] /\
        (forall e, In e before -> snd e = true) /\
        raiser x c = true
  end.
Proof.
  change (ends_well (fst (main W [])) (snd (main W []))).
  destruct (main_invocation W) as (evs & res & E & I). rewrite E. cbn [fst snd].
  destruct I as [Hcat | tables Hcat Hls | tables files levs lres Hcat Hls L].
  - exists [], (ListTables namespace). repeat apply conj; [reflexivity | | reflexivity].
    intros e [].
  - exists (preamble tables), (Ls landing_zone).
    repeat apply conj; [reflexivity | | reflexivity].
    intros e He. unfold preamble in He. cbn [In] in He.
    destruct He as [<-|[<-|[<-|[]]]]; reflexivity.
  - change (preamble tables ++ (Ls landing_zone, true) :: levs ++ closing lres)
      with ((preamble tables ++ [(Ls landing_zone, true)]) ++ levs ++ closing lres).
    apply ends_well_app.
    + intros e He. unfold preamble in He. cbn [In app] in He.
      destruct He as [<-|[<-|[<-|[<-|[]]]]]; reflexivity.
    + pose proof (loop_run_ends_well _ _ _ _ L) as Hl.
      destruct lres as [u|x]; cbn [closing ends_well] in *.
      * intros e He. apply in_app_or in He as [He|[<-|[]]]; auto.
      * now rewrite app_nil_r.
Qed.

(** A pass raises only what a load, a write or a move raises. *)
Lemma loop_run_raised (tables files : list string) (evs : list event) (x : exn) :
  loop_run tables files evs (Raised x) ->
  x = ReadError \/ x = WriteError \/ x = MoveError.
Proof.
  intros L. remember (Raised x) as res eqn:Hres.
  induction L as [|fp rest evs y R|fp rest evs evs' res R L IH].
  - discriminate Hres.
  - injection Hres as ->. inversion R; auto.
  - auto.
Qed.

(** X16.  A failure of the table listing or of the directory listing ends
    the invocation before any file is touched: the log then holds no read,
    no write and no move. *)
Theorem run_setup_failure_touches_nothing (W : World) (x : exn) :
  snd (main W []) = Raised x ->
  x = CatalogError \/ x = ListingError ->
  forall e, In e (fst (main W [])) -> is_effect (fst e) = false.
Proof.
  intros Hres Hx e He.
  destruct (main_invocation W) as (evs & res & E & I). rewrite E in *.
  cbn [fst snd] in *. subst res.
  destruct (is_effect (fst e)) eqn:Heff; [|reflexivity].
  destruct (invocation_effect W evs _ e I He Heff)
    as (tables & files & levs & lres & Hcat & Hls & L & _ & ->).
  exfalso. clear He Heff.
  remember (Raised x) as res eqn:Hr.
  destruct I as [Hcat' | tables' Hcat' Hls' | tables' files' levs' lres' Hcat' Hls' L'].
  - rewrite Hcat in Hcat'. discriminate Hcat'.
  - rewrite Hcat in Hcat'. injection Hcat' as <-.
    rewrite Hls in Hls'. discriminate Hls'.
  - subst lres'. apply loop_run_raised in L'.
    destruct Hx as [->| ->]; destruct L' as [H|[H|H]]; discriminate H.
Qed.

Lemma run_setup_failure_touches_nothing_sample :
  snd (main unreachable_catalog []) = Raised CatalogError /\
  forall e, In e (fst (main unreachable_catalog [])) -> is_effect (fst e) = false.
Proof.
  split; [reflexivity|].
  apply (run_setup_failure_touches_nothing unreachable_catalog CatalogError).
  - reflexivity.
  - left. reflexivity.
Defined.
